(** * Composition: the camera playground page and the colour converter

    A shallow embedding of the logic of the camera playground page
    (mode switches, ratio selection, crop computation of [handleCapture])
    and of the colour-conversion contract of the specification. *)

From Stdlib Require Import ZArith QArith Qround Qminmax List String Ascii Bool.
From Stdlib Require Import Lia Lqa Permutation.
From Stdlib Require Import PrimFloat Uint63 SpecFloat FloatOps FloatAxioms.
Import ListNotations.

Local Open Scope Z_scope.

(** ** JavaScript numbers

    The page computes with JavaScript numbers.  The arithmetic the page
    uses is gathered in one interface with two instances: IEEE 754
    binary64, the arithmetic the browser executes, at which the crop of
    [handleCapture] is studied, and the exact rationals, used only where
    rounding plays no role (the labels and the length of RATIOS). *)

Class Number (N : Type) : Type := {
  ofZ : Z -> N;
  mul : N -> N -> N;
  div : N -> N -> N;
  sub : N -> N -> N;
  gtb : N -> N -> bool
}.

#[export] Instance Number_Q : Number Q := {|
  ofZ := inject_Z;
  mul := Qmult;
  div := Qdiv;
  sub := Qminus;
  gtb := fun a b => negb (Qle_bool a b)
|}.

Definition float_ofZ (z : Z) : float :=
  match z with
  | Z0 => PrimFloat.zero
  | Zpos _ => PrimFloat.of_uint63 (Uint63.of_Z z)
  | Zneg p => PrimFloat.opp (PrimFloat.of_uint63 (Uint63.of_Z (Zpos p)))
  end.

#[export] Instance Number_binary64 : Number float := {|
  ofZ := float_ofZ;
  mul := PrimFloat.mul;
  div := PrimFloat.div;
  sub := PrimFloat.sub;
  gtb := fun a b => PrimFloat.ltb b a
|}.

(** ** The camera playground page (src/unnamed/part_001) *)

Module Camera.

(** [type OverlayMode = 'none' | 'thirds' | 'symmetry'] *)
Inductive OverlayMode : Type := none | thirds | symmetry.

(** The type of the [facingMode] state: ['user' | 'environment']. *)
Inductive FacingMode : Type := user | environment.

(** [type RatioOption = { label: string; value: number }] *)
Record RatioOption (N : Type) : Type := {
  label : string;
  value : N
}.
Arguments label {N} _.
Arguments value {N} _.

Section WithNumber.
Context {N : Type} `{Number N}.

(** [const RATIOS: RatioOption[]]; the values are written as divisions
    in the source and are computed as such. *)
Definition RATIOS : list (RatioOption N) :=
  [ {| label := "1:1"; value := ofZ 1 |};
    {| label := "4:3"; value := div (ofZ 4) (ofZ 3) |};
    {| label := "3:2"; value := div (ofZ 3) (ofZ 2) |};
    {| label := "16:9"; value := div (ofZ 16) (ofZ 9) |} ].

(** [RATIOS[i]]: indexing an array outside its bounds gives
    [undefined], here [None]. *)
Definition RATIOS_at (i : Z) : option (RatioOption N) :=
  if i <? 0 then None else nth_error RATIOS (Z.to_nat i).
End WithNumber.

(** The members of [OverlayMode], in the order of the type. *)
Definition overlayModes : list OverlayMode := [none; thirds; symmetry].

(** The updater of [switchCamera]:
    [(prev) => (prev === 'user' ? 'environment' : 'user')]. *)
Definition switchCamera (prev : FacingMode) : FacingMode :=
  match prev with
  | user => environment
  | environment => user
  end.

(** The updater of [switchOverlay]. *)
Definition switchOverlay (prev : OverlayMode) : OverlayMode :=
  match prev with
  | none => thirds
  | thirds => symmetry
  | symmetry => none
  end.

(** [RATIOS.length]; it does not depend on the number representation. *)
Definition RATIOS_length : Z := Z.of_nat (List.length (RATIOS (N := Q))).

(** The updater of [switchRatio]: [(prev) => (prev + 1) % RATIOS.length].
    JavaScript's [%] takes the sign of the dividend: [Z.rem].  The index
    is a double; sum and remainder are exact on the integers below 2^53,
    and the indices the page reaches are 0, 1, 2 and 3. *)
Definition switchRatio (prev : Z) : Z := Z.rem (prev + 1) RATIOS_length.

(** The three [useState] cells the switches act on. *)
Record State : Type := {
  facingMode : FacingMode;
  overlay : OverlayMode;
  ratioIndex : Z
}.

(** [useState('user')], [useState('none')], [useState(0)]. *)
Definition init : State :=
  {| facingMode := user; overlay := none; ratioIndex := 0 |}.

(** The buttons of the page: [onSwitchCamera], [onSwitch] of the grid
    button, [onRatio]. *)
Inductive Event : Type := PressSwitchCamera | PressGrid | PressRatio.

Definition step (s : State) (e : Event) : State :=
  match e with
  | PressSwitchCamera =>
      {| facingMode := switchCamera (facingMode s);
         overlay := overlay s; ratioIndex := ratioIndex s |}
  | PressGrid =>
      {| facingMode := facingMode s;
         overlay := switchOverlay (overlay s); ratioIndex := ratioIndex s |}
  | PressRatio =>
      {| facingMode := facingMode s;
         overlay := overlay s; ratioIndex := switchRatio (ratioIndex s) |}
  end.

(** The state after a sequence of presses, oldest first. *)
Definition run (evs : list Event) (s : State) : State :=
  fold_left step evs s.

(** [const currentRatio = RATIOS[ratioIndex]] *)
Definition currentRatio {N : Type} `{Number N} (s : State)
  : option (RatioOption N) :=
  RATIOS_at (ratioIndex s).

(** The source rectangle [handleCapture] passes to [drawImage]. *)
Record Crop (N : Type) : Type := {
  cropWidth : N;
  cropHeight : N;
  sx : N;
  sy : N
}.
Arguments cropWidth {N} _.
Arguments cropHeight {N} _.
Arguments sx {N} _.
Arguments sy {N} _.

(** The crop computation of [handleCapture] (lines 182 to 197), from the
    dimensions of the video and [currentRatio.value]. *)
Definition handleCapture {N : Type} `{Number N}
    (videoWidth videoHeight targetRatio : N) : Crop N :=
  let videoRatio := div videoWidth videoHeight in
  let cropWidth :=
    if gtb videoRatio targetRatio then mul videoHeight targetRatio
    else videoWidth in
  let cropHeight :=
    if gtb videoRatio targetRatio then videoHeight
    else div videoWidth targetRatio in
  {| cropWidth := cropWidth;
     cropHeight := cropHeight;
     sx := div (sub videoWidth cropWidth) (ofZ 2);
     sy := div (sub videoHeight cropHeight) (ofZ 2) |}.

(** *** What the page shows and what a capture writes *)

(** The text of the grid button ([GridButton], lines 115 to 119). *)
Definition GridButton (overlay : OverlayMode) : string :=
  match overlay with
  | none => "No Grid"
  | thirds => "Rule of Thirds"
  | symmetry => "Symmetry"
  end.

(** The text of the ratio button: [ratioLabel={currentRatio.label}]
    (line 261); reading [label] of [undefined] throws, here [None]. *)
Definition ratioLabel (s : State) : option string :=
  option_map label (currentRatio (N := Q) s).

(** Whether the preview is mirrored: the video element carries the class
    [scale-x-[-1]] when [facingMode === 'user'] (lines 253 to 255). *)
Definition previewMirrored (facingMode : FacingMode) : bool :=
  match facingMode with
  | user => true
  | environment => false
  end.

Definition Event_eq_dec (a b : Event) : {a = b} + {a <> b}.
Proof. decide equality. Defined.

(** How often a button occurs in a sequence of presses. *)
Definition presses (e : Event) (evs : list Event) : nat :=
  count_occ Event_eq_dec evs e.

(** [.replace(/[:.]/g, '-')] (line 232): every colon and every full stop
    becomes a hyphen. *)
Fixpoint replaceColonDot (s : string) : string :=
  match s with
  | EmptyString => EmptyString
  | String c rest =>
      String (if (Ascii.eqb c ":" || Ascii.eqb c ".")%bool then "-"%char else c)
             (replaceColonDot rest)
  end.

(** [link.download] (lines 232 and 233): the template
    [photo-${currentRatio.label}-${timestamp}.png], from the label and the
    string [toISOString] returned. *)
Definition downloadName (label iso : string) : string :=
  ("photo-" ++ label ++ "-" ++ replaceColonDot iso ++ ".png")%string.

(** The number of occurrences of a character in a string. *)
Fixpoint countChar (c : ascii) (s : string) : nat :=
  match s with
  | EmptyString => 0%nat
  | String c' rest =>
      ((if Ascii.eqb c c' then 1 else 0) + countChar c rest)%nat
  end.

(** The current transformation matrix of the 2D context, in the order
    of the arguments of [setTransform]: a point (x, y) is drawn at
    (a x + c y + e, b x + d y + f). *)
Record Matrix : Type := {
  m_a : Q; m_b : Q; m_c : Q; m_d : Q; m_e : Q; m_f : Q
}.

(** [ctx.setTransform(a, b, c, d, e, f)] replaces the matrix. *)
Definition setTransform (a b c d e f : Q) : Matrix :=
  {| m_a := a; m_b := b; m_c := c; m_d := d; m_e := e; m_f := f |}.

(** [ctx.translate(x, y)] multiplies the matrix by a translation on the
    right. *)
Definition translate (m : Matrix) (x y : Q) : Matrix :=
  {| m_a := m_a m; m_b := m_b m; m_c := m_c m; m_d := m_d m;
     m_e := m_a m * x + m_c m * y + m_e m;
     m_f := m_b m * x + m_d m * y + m_f m |}%Q.

(** [ctx.scale(x, y)] multiplies the matrix by a scaling on the right. *)
Definition scale (m : Matrix) (x y : Q) : Matrix :=
  {| m_a := m_a m * x; m_b := m_b m * x;
     m_c := m_c m * y; m_d := m_d m * y;
     m_e := m_e m; m_f := m_f m |}%Q.

(** Where the matrix sends a point. *)
Definition transformPoint (m : Matrix) (p : Q * Q) : Q * Q :=
  (m_a m * fst p + m_c m * snd p + m_e m,
   m_b m * fst p + m_d m * snd p + m_f m)%Q.

(** The matrix [handleCapture] draws with (lines 205 to 211): the
    identity, then for the front camera a translation by [cropWidth]
    and a horizontal flip. *)
Definition captureTransform (facingMode : FacingMode) (cropWidth : Q)
  : Matrix :=
  let m := setTransform 1 0 0 1 0 0 in
  match facingMode with
  | user => scale (translate m cropWidth 0) (-1) 1
  | environment => m
  end.

End Camera.

(** ** The colour converter (specification, sections 3, 4.1 and 7)

    No source file of the repository defines the conversion functions;
    they are modelled from the contract the specification gives. *)

Module ColorConverter.

(** Modelled from the spec: the error taxonomy of section 7,
    [InvalidFormat] and [OutOfRange]; no source file declares it. *)
Inductive ColorError : Type := InvalidFormat | OutOfRange.

(** Modelled from the spec: a conversion either returns a value or
    reports one of the two errors to its caller (section 7). *)
Inductive result (A : Type) : Type :=
| Ok (a : A)
| Err (e : ColorError).
Arguments Ok {A} _.
Arguments Err {A} _.

(** Modelled from the spec: the RGB record of section 3, fields r, g, b.
    The fields are numbers; the declared domain is the integers 0 to 255. *)
Record RGB : Type := { rgb_r : Q; rgb_g : Q; rgb_b : Q }.

(** Modelled from the spec: a number that may fail to be finite
    (section 4.1: h not finite). *)
Inductive JsNumber : Type :=
| Finite (q : Q)
| NaN
| Infinity (negative : bool).

(** Modelled from the spec: the HSL record of section 3, s and l in
    percent; the hue is the field whose finiteness [hslToRgb] checks. *)
Record HSL : Type := { hsl_h : JsNumber; hsl_s : Q; hsl_l : Q }.

(** Modelled from the spec: the CMYK record of section 3, in percent. *)
Record CMYK : Type := { cmyk_c : Q; cmyk_m : Q; cmyk_y : Q; cmyk_k : Q }.

(** *** Shared numeric utilities *)

(** Modelled from the spec: integer fields are rounded half away from
    zero (section 4.1, numeric semantics). *)
Definition roundHalfAway (q : Q) : Z :=
  if Qle_bool 0 q then Qfloor (q + (1 # 2))%Q
  else - Qfloor (- q + (1 # 2))%Q.

(** Modelled from the spec: clamping, one of the shared numeric
    utilities of section 2. *)
Definition clamp (lo hi x : Z) : Z := Z.max lo (Z.min hi x).

(** Modelled from the spec: the same clamping on numbers that are not
    rounded (the channels [rgbToCmyk] scales). *)
Definition Qclamp (lo hi x : Q) : Q := Qmax lo (Qmin hi x).

(** Modelled from the spec: [rgbToHex] clamps each channel to 0..255,
    rounding to the nearest integer (section 4.1). *)
Definition channelByte (q : Q) : Z := clamp 0 255 (roundHalfAway q).

(** *** HEX *)

(** Modelled from the spec: the lowercase hexadecimal digit of a value
    in 0..15 (section 4.1: lowercase form). *)
Definition hexDigit (d : Z) : ascii :=
  nth (Z.to_nat d) (list_ascii_of_string "0123456789abcdef") "0"%char.

(** Modelled from the spec: the two digits of a channel in 0..255, high
    digit first (section 4.1: 6-digit form). *)
Definition hexByte (n : Z) : list ascii :=
  [hexDigit (n / 16); hexDigit (n mod 16)].

(** Modelled from the spec: [rgbToHex] of section 4.1: the leading [#]
    followed by two lowercase digits for each clamped channel. *)
Definition rgbToHex (rgb : RGB) : string :=
  string_of_list_ascii
    ("#"%char :: hexByte (channelByte (rgb_r rgb))
              ++ hexByte (channelByte (rgb_g rgb))
              ++ hexByte (channelByte (rgb_b rgb))).

(** Modelled from the spec: the value of a hexadecimal digit, either
    case (section 4.1: case-insensitive). *)
Definition digitValue (c : ascii) : option Z :=
  let n := Z.of_nat (nat_of_ascii c) in
  if (48 <=? n) && (n <=? 57) then Some (n - 48)
  else if (97 <=? n) && (n <=? 102) then Some (n - 87)
  else if (65 <=? n) && (n <=? 70) then Some (n - 55)
  else None.

(** Modelled from the spec: the leading [#] is optional on input
    (section 4.1); one is dropped if present. *)
Definition stripHash (hex : string) : string :=
  match hex with
  | String "#"%char rest => rest
  | _ => hex
  end.

(** Modelled from the spec: the RGB value with the given integer
    channels. *)
Definition rgbOfBytes (r g b : Z) : RGB :=
  {| rgb_r := inject_Z r; rgb_g := inject_Z g; rgb_b := inject_Z b |}.

(** Modelled from the spec: the values of a run of hexadecimal digits;
    [None] as soon as one character is outside the charset. *)
Fixpoint digitValues (cs : list ascii) : option (list Z) :=
  match cs with
  | [] => Some []
  | c :: cs' =>
      match digitValue c, digitValues cs' with
      | Some d, Some ds => Some (d :: ds)
      | _, _ => None
      end
  end.

(** Modelled from the spec: [hexToRgb] of section 4.1: three or six
    hexadecimal digits, with or without the leading [#], either case;
    [InvalidFormat] otherwise.  A digit of the shorthand stands for the
    digit written twice. *)
Definition hexToRgb (hex : string) : result RGB :=
  match digitValues (list_ascii_of_string (stripHash hex)) with
  | Some [r; g; b] =>
      Ok (rgbOfBytes (16 * r + r) (16 * g + g) (16 * b + b))
  | Some [r1; r0; g1; g0; b1; b0] =>
      Ok (rgbOfBytes (16 * r1 + r0) (16 * g1 + g0) (16 * b1 + b0))
  | _ => Err InvalidFormat
  end.

(** The words of the specification for the charset of a HEX string: the
    hexadecimal digits of either case. *)
Definition isHexDigit (c : ascii) : Prop :=
  In c (list_ascii_of_string "0123456789abcdefABCDEF").

(** [isHexDigit] as a test. *)
Definition isHexDigitb (c : ascii) : bool :=
  existsb (Ascii.eqb c) (list_ascii_of_string "0123456789abcdefABCDEF").

(** The words of the specification for a well-formed HEX string, to be
    compared with what [hexToRgb] accepts: three or six characters of the
    charset, possibly after one leading [#]. *)
Definition isHexColor (hex : string) : Prop :=
  exists digits : string,
    (hex = digits \/ hex = String "#"%char digits) /\
    (String.length digits = 3%nat \/ String.length digits = 6%nat) /\
    Forall isHexDigit (list_ascii_of_string digits).

(** *** HSL *)

Local Open Scope Q_scope.

(** Modelled from the spec: the remainder that brings a circular
    quantity into 0..m (section 3: the hue is circular). *)
Definition Qmod (a m : Q) : Q := a - m * inject_Z (Qfloor (a / m)).

(** Modelled from the spec: the absolute value the cylindrical transform
    uses. *)
Definition Qabs' (a : Q) : Q := if Qle_bool 0 a then a else - a.

(** Modelled from the spec: the domain check of [hslToRgb]
    (section 4.1): s and l within 0..100. *)
Definition percentInRange (p : Q) : bool :=
  Qle_bool 0 p && Qle_bool p 100.

(** Modelled from the spec: the standard cylindrical transform from
    HSL to RGB on a finite hue, s and l in percent. *)
Definition hslTransform (h s l : Q) : RGB :=
  let s1 := s / 100 in
  let l1 := l / 100 in
  let c := (1 - Qabs' (2 * l1 - 1)) * s1 in
  let h1 := Qmod h 360 / 60 in
  let x := c * (1 - Qabs' (Qmod h1 2 - 1)) in
  let m := l1 - c / 2 in
  let '(r1, g1, b1) :=
    match Qfloor h1 with
    | 0%Z => (c, x, 0)
    | 1%Z => (x, c, 0)
    | 2%Z => (0, c, x)
    | 3%Z => (0, x, c)
    | 4%Z => (x, 0, c)
    | _ => (c, 0, x)
    end in
  rgbOfBytes (roundHalfAway ((r1 + m) * 255))
             (roundHalfAway ((g1 + m) * 255))
             (roundHalfAway ((b1 + m) * 255)).

(** Modelled from the spec: the finiteness test on the hue
    (section 4.1: h not finite). *)
Definition isFinite (n : JsNumber) : bool :=
  match n with
  | Finite _ => true
  | NaN | Infinity _ => false
  end.

(** Modelled from the spec: [hslToRgb] of section 4.1: [OutOfRange] if
    s or l is outside 0..100 or h is not finite. *)
Definition hslToRgb (hsl : HSL) : result RGB :=
  match hsl_h hsl with
  | Finite h =>
      if percentInRange (hsl_s hsl) && percentInRange (hsl_l hsl)
      then Ok (hslTransform h (hsl_s hsl) (hsl_l hsl))
      else Err OutOfRange
  | NaN | Infinity _ => Err OutOfRange
  end.

(** The words of the specification for an HSL value [hslToRgb]
    rejects: s or l outside 0..100, or h not finite. *)
Definition hslOutOfRange (hsl : HSL) : Prop :=
  isFinite (hsl_h hsl) = false \/
  (hsl_s hsl < 0 \/ 100 < hsl_s hsl) \/
  (hsl_l hsl < 0 \/ 100 < hsl_l hsl).

(** *** CMYK *)

(** Modelled from the spec: a division that reports a zero divisor
    instead of computing with it (section 3: avoid divide-by-zero). *)
Definition checkedDiv (a d : Q) : option Q :=
  if Qeq_bool d 0 then None else Some (a / d).

(** Sequencing of computations that may have divided by zero. *)
Definition optionBind {A B : Type} (o : option A) (f : A -> option B)
  : option B :=
  match o with
  | Some a => f a
  | None => None
  end.

(** Modelled from the spec: [rgbToCmyk] of sections 3 and 4.1, the
    naive subtractive model: k = 1 - max(r, g, b) on channels scaled to
    0..1, c, m and y normalised against 1 - k, pure black by convention
    k = 100 and c = m = y = 0; results in percent.  Out-of-domain
    channels are clamped.  [None] stands for a division by zero. *)
Definition rgbToCmyk (rgb : RGB) : option CMYK :=
  let r := Qclamp 0 255 (rgb_r rgb) / 255 in
  let g := Qclamp 0 255 (rgb_g rgb) / 255 in
  let b := Qclamp 0 255 (rgb_b rgb) / 255 in
  let k := 1 - Qmax r (Qmax g b) in
  if Qeq_bool k 1 then
    Some {| cmyk_c := 0; cmyk_m := 0; cmyk_y := 0; cmyk_k := 100 |}
  else
    optionBind (checkedDiv (1 - r - k) (1 - k)) (fun c =>
    optionBind (checkedDiv (1 - g - k) (1 - k)) (fun m =>
    optionBind (checkedDiv (1 - b - k) (1 - k)) (fun y =>
    Some {| cmyk_c := c * 100; cmyk_m := m * 100;
            cmyk_y := y * 100; cmyk_k := k * 100 |}))).

End ColorConverter.

Import Camera.
Import ColorConverter.

(** * Properties of the camera playground page *)

Lemma RATIOS_length_4 : RATIOS_length = 4.
Proof. reflexivity. Qed.

Lemma switchRatio_range (i : Z) : 0 <= i -> 0 <= switchRatio i < 4.
Proof.
  intros Hi. unfold switchRatio. rewrite RATIOS_length_4.
  rewrite Z.rem_mod_nonneg by lia.
  apply Z.mod_pos_bound. lia.
Qed.

Lemma run_snoc (evs : list Event) (e : Event) (s : State) :
  run (evs ++ [e]) s = step (run evs s) e.
Proof. unfold run. now rewrite fold_left_app. Qed.

Lemma ratioIndex_reachable (evs : list Event) :
  0 <= ratioIndex (run evs init) < 4.
Proof.
  induction evs as [| e evs IH] using rev_ind.
  - cbn. lia.
  - rewrite run_snoc. destruct e; cbn; try exact IH.
    apply switchRatio_range. lia.
Qed.

Lemma ratioIndex_cases (i : Z) :
  0 <= i < 4 -> i = 0 \/ i = 1 \/ i = 2 \/ i = 3.
Proof. lia. Qed.

Lemma RATIOS_at_defined {N : Type} `{Number N} (i : Z) :
  0 <= i < 4 -> exists r : RatioOption N, RATIOS_at i = Some r /\ In r RATIOS.
Proof.
  intros Hi.
  destruct (ratioIndex_cases i Hi) as [-> | [-> | [-> | ->]]];
    cbn; eexists; (split; [reflexivity | ]); cbn; tauto.
Qed.

Lemma press_ratio_cycle (s : State) :
  0 <= ratioIndex s < 4 ->
  run (repeat PressRatio (List.length (RATIOS (N := Q)))) s = s.
Proof.
  intros Hi. destruct s as [f o i]. cbn in Hi.
  destruct (ratioIndex_cases i Hi) as [-> | [-> | [-> | ->]]]; reflexivity.
Qed.

(** C7: a press of the grid button applies [switchOverlay] to the overlay
    and a press of the ratio button applies [switchRatio] to the index,
    leaving the other cells alone; the overlay switch advances none,
    thirds, symmetry and back to none, the ratio switch advances 1:1, 4:3,
    3:2, 16:9 and back to 1:1; pressing a switch as many times as it has
    modes gives back the state the page was in, whatever presses led to
    that state. *)
Theorem switch_cycles :
  (switchOverlay none = thirds /\
   switchOverlay thirds = symmetry /\
   switchOverlay symmetry = none) /\
  (forall o : OverlayMode, In o overlayModes) /\
  (forall s : State,
     run (repeat PressGrid (List.length overlayModes)) s = s) /\
  map label (RATIOS (N := Q)) = ["1:1"; "4:3"; "3:2"; "16:9"]%string /\
  (switchRatio 0 = 1 /\ switchRatio 1 = 2 /\
   switchRatio 2 = 3 /\ switchRatio 3 = 0) /\
  (forall evs : list Event,
     run (repeat PressRatio (List.length (RATIOS (N := Q)))) (run evs init)
     = run evs init) /\
  (forall s : State,
     overlay (step s PressGrid) = switchOverlay (overlay s) /\
     facingMode (step s PressGrid) = facingMode s /\
     ratioIndex (step s PressGrid) = ratioIndex s) /\
  (forall s : State,
     ratioIndex (step s PressRatio) = switchRatio (ratioIndex s) /\
     facingMode (step s PressRatio) = facingMode s /\
     overlay (step s PressRatio) = overlay s) /\
  (forall s : State, run [] s = s) /\
  (forall (evs : list Event) (e : Event) (s : State),
     run (evs ++ [e]) s = step (run evs s) e).
Proof.
  split; [repeat split | ].
  split; [intros [ | | ]; cbn; tauto | ].
  split; [intros [f [ | | ] i]; reflexivity | ].
  split; [reflexivity | ].
  split; [repeat split | ].
  split; [intros evs; apply press_ratio_cycle, ratioIndex_reachable | ].
  split; [intros s; repeat split | ].
  split; [intros s; repeat split | ].
  split; [reflexivity | exact run_snoc].
Qed.

(** C9: the facing-mode toggle of [switchCamera] sends user to environment
    and environment to user, so two applications give back the facing mode
    one started from. *)
Theorem switchCamera_involution :
  switchCamera user = environment /\
  switchCamera environment = user /\
  (forall m : FacingMode, switchCamera (switchCamera m) = m) /\
  (forall s : State, run [PressSwitchCamera; PressSwitchCamera] s = s).
Proof.
  repeat split.
  - intros [ | ]; reflexivity.
  - intros [[ | ] o i]; reflexivity.
Qed.

(** C10: [switchRatio] replaces the index by (previous + 1) modulo the
    length of RATIOS, which is four; from the initial index 0 every
    sequence of presses leaves the index in 0, 1, 2, 3 and [currentRatio]
    is an entry of RATIOS. *)
Theorem ratioIndex_invariant (N : Type) (HN : Number N) :
  (forall s : State,
     ratioIndex (step s PressRatio)
     = Z.rem (ratioIndex s + 1) (Z.of_nat (List.length (RATIOS (N := N))))) /\
  List.length (RATIOS (N := N)) = 4%nat /\
  ratioIndex init = 0 /\
  (forall evs : list Event,
     In (ratioIndex (run evs init)) [0; 1; 2; 3] /\
     exists r : RatioOption N,
       currentRatio (run evs init) = Some r /\ In r RATIOS).
Proof.
  split; [ | split; [ | split ]]; try reflexivity.
  intros evs. pose proof (ratioIndex_reachable evs) as Hi. split.
  - destruct (ratioIndex_cases _ Hi) as [-> | [-> | [-> | ->]]]; cbn; tauto.
  - unfold currentRatio. now apply RATIOS_at_defined.
Qed.

(** ** The crop rectangle of [handleCapture] *)

(** A dimension a video can have is a positive finite number: its
    binary64 representation is a positive mantissa and an exponent. *)
Lemma positive_finite (x : float) :
  PrimFloat.ltb 0 x = true -> PrimFloat.ltb x infinity = true ->
  exists m e, Prim2SF x = S754_finite false m e.
Proof.
  rewrite !ltb_spec. intros Hpos Hfin.
  change (Prim2SF 0) with (S754_zero false) in Hpos.
  change (Prim2SF infinity) with (S754_infinity false) in Hfin.
  destruct (Prim2SF x) as [s | s | | s m e]; cbn in Hpos, Hfin.
  - discriminate.
  - destruct s; discriminate.
  - discriminate.
  - destruct s; [discriminate | ]. now exists m, e.
Qed.

(** The difference of such a number with itself is +0. *)
Lemma binary64_sub_diag (x : float) :
  PrimFloat.ltb 0 x = true -> PrimFloat.ltb x infinity = true ->
  PrimFloat.sub x x = PrimFloat.zero.
Proof.
  intros Hpos Hfin.
  destruct (positive_finite x Hpos Hfin) as (m & e & Hx).
  apply Prim2SF_inj. rewrite sub_spec, Hx.
  unfold SF64sub, SFsub. rewrite Z.sub_diag. reflexivity.
Qed.

Lemma binary64_leb_refl (x : float) :
  PrimFloat.ltb 0 x = true -> PrimFloat.ltb x infinity = true ->
  PrimFloat.leb x x = true.
Proof.
  intros Hpos Hfin.
  destruct (positive_finite x Hpos Hfin) as (m & e & Hx).
  rewrite leb_spec, Hx. unfold SFleb, SFcompare.
  now rewrite Z.compare_refl, Pos.compare_cont_refl.
Qed.



(** C8, the ratio: with binary64 numbers the
    quotient cropWidth / cropHeight need not be the target ratio.  For a
    1280 by 800 video and the ratio 4:3 of RATIOS the crop is
    1066.6666666666665 by 800, whose quotient 1.333333333333333 is one unit
    in the last place below the stored ratio 1.3333333333333333. *)
Lemma handleCapture_binary64_ratio_drift :
  option_map value (RATIOS_at (N := float) 1) = Some (div (ofZ 4) (ofZ 3)) /\
  cropWidth (handleCapture (ofZ 1280) (ofZ 800) (div (ofZ 4) (ofZ 3)))
  = 0x1.0aaaaaaaaaaaap+10%float /\
  cropHeight (handleCapture (ofZ 1280) (ofZ 800) (div (ofZ 4) (ofZ 3)))
  = 800%float /\
  PrimFloat.eqb
    (div (cropWidth (handleCapture (ofZ 1280) (ofZ 800) (div (ofZ 4) (ofZ 3))))
         (cropHeight (handleCapture (ofZ 1280) (ofZ 800) (div (ofZ 4) (ofZ 3)))))
    (div (ofZ 4) (ofZ 3)) = false.
Proof. repeat split. Qed.

(** C8, the fit: with binary64 numbers the computed dimension can leave
    the frame.  For a 1400 by 1000 video and the target ratio 7 / 5, the
    video ratio 1.4 is not above the stored 7 / 5, the width is kept, and
    the height 1400 / (7 / 5) rounds to 1000.0000000000001, above the
    video height, so that sy is negative. *)
Lemma handleCapture_binary64_fit_drift :
  gtb (div (ofZ 1400) (ofZ 1000)) (div (ofZ 7) (ofZ 5)) = false /\
  cropHeight (handleCapture (ofZ 1400) (ofZ 1000) (div (ofZ 7) (ofZ 5)))
  = 0x1.f400000000001p+9%float /\
  PrimFloat.leb
    (cropHeight (handleCapture (ofZ 1400) (ofZ 1000) (div (ofZ 7) (ofZ 5))))
    (ofZ 1000) = false /\
  PrimFloat.ltb
    (sy (handleCapture (ofZ 1400) (ofZ 1000) (div (ofZ 7) (ofZ 5))))
    (ofZ 0) = true.
Proof. repeat split. Qed.


(** * Properties of the colour converter *)

(** ** HEX: encoding and decoding *)

Lemma Zdiv2_succ_double (a : Z) : (a * 2 + 1) / 2 = a.
Proof.
  replace (a * 2 + 1) with (1 + a * 2) by lia.
  rewrite Z.div_add by lia. reflexivity.
Qed.

Lemma Qfloor_plus_half (n : Z) : Qfloor (inject_Z n + (1 # 2)) = n.
Proof.
  unfold Qfloor, Qplus, inject_Z. cbn [Qnum Qden].
  change (Z.pos (1 * 2)) with 2. rewrite Z.mul_1_l.
  apply Zdiv2_succ_double.
Qed.

Lemma roundHalfAway_inject_Z (n : Z) : roundHalfAway (inject_Z n) = n.
Proof.
  unfold roundHalfAway.
  destruct (Qle_bool 0 (inject_Z n)).
  - apply Qfloor_plus_half.
  - change (- inject_Z n)%Q with (inject_Z (- n)).
    rewrite Qfloor_plus_half. lia.
Qed.

Lemma channelByte_inject_Z (n : Z) :
  0 <= n <= 255 -> channelByte (inject_Z n) = n.
Proof.
  intros Hn. unfold channelByte, clamp.
  rewrite roundHalfAway_inject_Z. lia.
Qed.

Lemma digitValue_hexDigit (d : Z) :
  0 <= d < 16 -> digitValue (hexDigit d) = Some d.
Proof.
  intros Hd.
  assert (Hcases : In d [0;1;2;3;4;5;6;7;8;9;10;11;12;13;14;15]) by (cbn; lia).
  cbn in Hcases.
  repeat (destruct Hcases as [<- | Hcases]; [reflexivity | ]).
  contradiction.
Qed.

Lemma digitValues_hexByte (n : Z) (cs : list ascii) :
  0 <= n <= 255 ->
  digitValues (hexByte n ++ cs) =
  option_map (fun ds => n / 16 :: n mod 16 :: ds) (digitValues cs).
Proof.
  intros Hn. unfold hexByte. cbn [app digitValues].
  rewrite !digitValue_hexDigit.
  - destruct (digitValues cs); reflexivity.
  - apply Z.mod_pos_bound. lia.
  - split; [apply Z.div_pos; lia | apply Z.div_lt_upper_bound; lia].
Qed.

Lemma hexByte_value (n : Z) : 16 * (n / 16) + n mod 16 = n.
Proof. symmetry. apply Z.div_mod. lia. Qed.

(** Decoding what [rgbToHex] wrote gives the clamped, rounded channels. *)
Lemma hexToRgb_rgbToHex (rgb : RGB) :
  hexToRgb (rgbToHex rgb)
  = Ok (rgbOfBytes (channelByte (rgb_r rgb)) (channelByte (rgb_g rgb))
                   (channelByte (rgb_b rgb))).
Proof.
  assert (Hbyte : forall q, 0 <= channelByte q <= 255)
    by (intros q; unfold channelByte, clamp; lia).
  unfold hexToRgb, rgbToHex.
  cbn [string_of_list_ascii stripHash].
  rewrite list_ascii_of_string_of_list_ascii.
  rewrite !digitValues_hexByte by apply Hbyte.
  replace (hexByte (channelByte (rgb_b rgb)))
    with (hexByte (channelByte (rgb_b rgb)) ++ []) by apply app_nil_r.
  rewrite digitValues_hexByte by apply Hbyte.
  cbn [digitValues option_map].
  rewrite !hexByte_value. reflexivity.
Qed.

(** C1: for integers r, g, b in 0..255, [hexToRgb] after [rgbToHex] gives
    back exactly the RGB value one started from. *)
Theorem hex_roundtrip (r g b : Z) :
  0 <= r <= 255 -> 0 <= g <= 255 -> 0 <= b <= 255 ->
  hexToRgb (rgbToHex (rgbOfBytes r g b)) = Ok (rgbOfBytes r g b).
Proof.
  intros Hr Hg Hb. rewrite hexToRgb_rgbToHex.
  cbn [rgbOfBytes rgb_r rgb_g rgb_b].
  now rewrite !channelByte_inject_Z by assumption.
Qed.

Lemma hex_roundtrip_witness :
  hexToRgb (rgbToHex (rgbOfBytes 255 128 0)) = Ok (rgbOfBytes 255 128 0).
Proof. apply (hex_roundtrip 255 128 0); lia. Defined.

(** ** HEX: what [hexToRgb] accepts *)

Lemma isHexDigitb_spec (c : ascii) : isHexDigitb c = true <-> isHexDigit c.
Proof.
  unfold isHexDigitb, isHexDigit. rewrite existsb_exists. split.
  - intros (x & Hin & Heq). apply Ascii.eqb_eq in Heq. now subst x.
  - intros Hin. exists c. split; [exact Hin | apply Ascii.eqb_refl].
Qed.

Lemma isHexDigitb_digitValue (c : ascii) :
  isHexDigitb c = match digitValue c with Some _ => true | None => false end.
Proof.
  destruct c as [[] [] [] [] [] [] [] []]; reflexivity.
Qed.

Lemma digitValue_Some (c : ascii) :
  isHexDigit c <-> exists d, digitValue c = Some d.
Proof.
  rewrite <- isHexDigitb_spec, isHexDigitb_digitValue.
  destruct (digitValue c) as [d | ]; split.
  - intros _. now exists d.
  - reflexivity.
  - discriminate.
  - intros (d & Hd). discriminate.
Qed.

Lemma digitValues_Some (cs : list ascii) :
  Forall isHexDigit cs <->
  exists ds, digitValues cs = Some ds /\ List.length ds = List.length cs.
Proof.
  induction cs as [ | c cs IH]; cbn [digitValues].
  - split; [ | constructor]. intros _. now exists [].
  - split.
    + intros Hall. inversion Hall as [ | ? ? Hc Hcs]; subst.
      apply digitValue_Some in Hc as (d & ->).
      apply IH in Hcs as (ds & -> & Hlen).
      exists (d :: ds). cbn. now rewrite Hlen.
    + intros (ds & Hds & Hlen).
      destruct (digitValue c) as [d | ] eqn:Hd; [ | discriminate].
      destruct (digitValues cs) as [ds' | ] eqn:Hds'; [ | discriminate].
      constructor.
      * apply digitValue_Some. now exists d.
      * apply IH. exists ds'. split; [reflexivity | ].
        injection Hds as <-. cbn in Hlen. lia.
Qed.

Lemma digitValues_length (cs : list ascii) (ds : list Z) :
  digitValues cs = Some ds -> List.length ds = List.length cs.
Proof.
  revert ds. induction cs as [ | c cs IH]; cbn [digitValues]; intros ds Hds.
  - now injection Hds as <-.
  - destruct (digitValue c); [ | discriminate].
    destruct (digitValues cs) as [ds' | ]; [ | discriminate].
    injection Hds as <-. cbn. now rewrite (IH ds').
Qed.

Lemma length_list_ascii_of_string (s : string) :
  List.length (list_ascii_of_string s) = String.length s.
Proof. induction s as [ | c s IH]; cbn; congruence. Qed.

(** What [hexToRgb] does in terms of the digits after the optional [#]. *)
Lemma hexToRgb_Ok_iff (hex : string) :
  (exists rgb, hexToRgb hex = Ok rgb) <->
  (exists ds, digitValues (list_ascii_of_string (stripHash hex)) = Some ds /\
              (List.length ds = 3%nat \/ List.length ds = 6%nat)).
Proof.
  unfold hexToRgb.
  destruct (digitValues (list_ascii_of_string (stripHash hex))) as [ds | ].
  - destruct ds as [ | a [ | b [ | c [ | d [ | e [ | f [ | g ds]]]]]]];
      (split;
       [ intros (rgb & Hrgb); try discriminate;
         eexists; (split; [reflexivity | cbn; lia])
       | intros (ds' & Hds' & Hlen); injection Hds' as <-; cbn in Hlen;
         try (exfalso; lia); eexists; reflexivity ]).
  - split.
    + intros (rgb & Hrgb). discriminate.
    + intros (ds & Hds & _). discriminate.
Qed.

Lemma hexToRgb_Err (hex : string) (e : ColorError) :
  hexToRgb hex = Err e -> e = InvalidFormat.
Proof.
  unfold hexToRgb.
  destruct (digitValues (list_ascii_of_string (stripHash hex))) as [ds | ].
  - destruct ds as [ | a [ | b [ | c [ | d [ | e' [ | f [ | g ds]]]]]]];
      intros Herr; try discriminate; now injection Herr as <-.
  - intros Herr. now injection Herr as <-.
Qed.

Lemma stripHash_cases (hex : string) :
  hex = stripHash hex \/ hex = String "#"%char (stripHash hex).
Proof.
  destruct hex as [ | c hex]; [now left | ].
  destruct (Ascii.eqb_spec c "#"%char) as [-> | Hne]; [now right | ].
  left. cbn. destruct c as [[] [] [] [] [] [] [] []]; try reflexivity.
  now contradiction Hne.
Qed.

Lemma stripHash_digits (digits : string) :
  Forall isHexDigit (list_ascii_of_string digits) ->
  stripHash digits = digits.
Proof.
  destruct digits as [ | c digits]; [reflexivity | ].
  cbn [list_ascii_of_string]. intros Hall.
  inversion Hall as [ | ? ? Hc _]; subst.
  apply isHexDigitb_spec in Hc.
  destruct c as [[] [] [] [] [] [] [] []]; try reflexivity; discriminate.
Qed.

Lemma hexToRgb_Ok_isHexColor (hex : string) :
  (exists rgb, hexToRgb hex = Ok rgb) <-> isHexColor hex.
Proof.
  rewrite hexToRgb_Ok_iff. split.
  - intros (ds & Hds & Hlen). exists (stripHash hex).
    split; [apply stripHash_cases | ].
    rewrite <- length_list_ascii_of_string.
    rewrite <- (digitValues_length _ _ Hds).
    split; [exact Hlen | ].
    apply digitValues_Some. exists ds. split; [exact Hds | ].
    now apply digitValues_length.
  - intros (digits & Hhex & Hlen & Hall).
    assert (Hstrip : stripHash hex = digits).
    { destruct Hhex as [-> | ->]; [now apply stripHash_digits | reflexivity]. }
    rewrite Hstrip.
    apply digitValues_Some in Hall as (ds & Hds & Hlen').
    exists ds. split; [exact Hds | ].
    rewrite Hlen', length_list_ascii_of_string. exact Hlen.
Qed.

Lemma hexToRgb_InvalidFormat_iff (hex : string) :
  hexToRgb hex = Err InvalidFormat <-> ~ isHexColor hex.
Proof.
  rewrite <- hexToRgb_Ok_isHexColor. split.
  - intros Herr (rgb & Hok). congruence.
  - intros Hno. destruct (hexToRgb hex) as [rgb | e] eqn:Hres.
    + exfalso. apply Hno. now exists rgb.
    + now rewrite (hexToRgb_Err hex e Hres).
Qed.

(** ** HSL: the domain check of [hslToRgb] *)

Lemma percentInRange_false (p : Q) :
  percentInRange p = false <-> (p < 0 \/ 100 < p)%Q.
Proof.
  unfold percentInRange. rewrite andb_false_iff. split.
  - intros [E | E]; [left | right]; apply Qnot_le_lt; intros Hle;
      apply Qle_bool_iff in Hle; congruence.
  - intros [Hlt | Hlt]; [left | right];
      (match goal with
       | |- Qle_bool ?a ?b = false =>
           destruct (Qle_bool a b) eqn:E; [ | reflexivity];
           apply Qle_bool_iff in E; exfalso; lra
       end).
Qed.

Lemma hslToRgb_OutOfRange_iff (hsl : HSL) :
  hslToRgb hsl = Err OutOfRange <-> hslOutOfRange hsl.
Proof.
  unfold hslToRgb, hslOutOfRange.
  rewrite <- !percentInRange_false.
  destruct (hsl_h hsl) as [h | | negative]; cbn [isFinite].
  - destruct (percentInRange (hsl_s hsl)), (percentInRange (hsl_l hsl));
      cbn [andb]; split; intros Hhyp; try reflexivity; try discriminate;
      try tauto; intuition discriminate.
  - split; [now left | reflexivity].
  - split; [now left | reflexivity].
Qed.

(** C3: [hexToRgb] fails with InvalidFormat exactly on the strings that are
    not three or six hexadecimal digits of either case after an optional
    leading #, and succeeds on the others; it fails so on #zzz and on
    12345.  [hslToRgb] fails with OutOfRange exactly when s or l is outside
    0..100 or h is not finite; it fails so on h = 0, s = 150, l = 50. *)
Theorem invalid_input_rejection :
  (forall hex : string,
     hexToRgb hex = Err InvalidFormat <-> ~ isHexColor hex) /\
  (forall hex : string,
     isHexColor hex <-> exists rgb : RGB, hexToRgb hex = Ok rgb) /\
  hexToRgb "#zzz" = Err InvalidFormat /\
  hexToRgb "12345" = Err InvalidFormat /\
  (forall hsl : HSL, hslToRgb hsl = Err OutOfRange <-> hslOutOfRange hsl) /\
  hslToRgb {| hsl_h := Finite 0; hsl_s := 150; hsl_l := 50 |}
  = Err OutOfRange.
Proof.
  split; [exact hexToRgb_InvalidFormat_iff | ].
  split; [intros hex; symmetry; apply hexToRgb_Ok_isHexColor | ].
  split; [reflexivity | ].
  split; [reflexivity | ].
  split; [exact hslToRgb_OutOfRange_iff | reflexivity].
Qed.

(** ** CMYK: pure black and division by zero *)

Lemma checkedDiv_Some (a d : Q) :
  ~ (d == 0)%Q -> checkedDiv a d = Some (a / d)%Q.
Proof.
  intros Hd. unfold checkedDiv.
  destruct (Qeq_bool d 0) eqn:E; [ | reflexivity].
  apply Qeq_bool_iff in E. contradiction.
Qed.

(** On every input the divisions of [rgbToCmyk] have a non-zero divisor. *)
Lemma rgbToCmyk_defined (rgb : RGB) :
  exists cmyk : CMYK, rgbToCmyk rgb = Some cmyk.
Proof.
  unfold rgbToCmyk.
  set (r := (Qclamp 0 255 (rgb_r rgb) / 255)%Q).
  set (g := (Qclamp 0 255 (rgb_g rgb) / 255)%Q).
  set (b := (Qclamp 0 255 (rgb_b rgb) / 255)%Q).
  set (k := (1 - Qmax r (Qmax g b))%Q).
  destruct (Qeq_bool k 1) eqn:E; [eexists; reflexivity | ].
  assert (Hk : ~ (1 - k == 0)%Q).
  { intros Hz. assert (Hk1 : (k == 1)%Q) by lra.
    apply Qeq_bool_iff in Hk1. congruence. }
  rewrite !checkedDiv_Some by exact Hk.
  cbn [optionBind]. eexists; reflexivity.
Qed.

(** C5: [rgbToCmyk] on pure black returns exactly c = 0, m = 0, y = 0,
    k = 100, and no division by zero takes place, there or anywhere. *)
Theorem rgbToCmyk_black :
  rgbToCmyk {| rgb_r := 0; rgb_g := 0; rgb_b := 0 |}
  = Some {| cmyk_c := 0; cmyk_m := 0; cmyk_y := 0; cmyk_k := 100 |} /\
  (forall rgb : RGB, exists cmyk : CMYK, rgbToCmyk rgb = Some cmyk).
Proof.
  split; [reflexivity | exact rgbToCmyk_defined].
Qed.

(** ** HEX: the form of what [rgbToHex] writes *)

Lemma hexDigit_lowercase (d : Z) :
  0 <= d < 16 -> In (hexDigit d) (list_ascii_of_string "0123456789abcdef").
Proof.
  intros Hd.
  assert (Hcases : In d [0;1;2;3;4;5;6;7;8;9;10;11;12;13;14;15]) by (cbn; lia).
  cbn in Hcases.
  repeat (destruct Hcases as [<- | Hcases]; [cbn; tauto | ]).
  contradiction.
Qed.

Lemma hexByte_lowercase (n : Z) :
  0 <= n <= 255 ->
  Forall (fun c => In c (list_ascii_of_string "0123456789abcdef")) (hexByte n).
Proof.
  intros Hn. unfold hexByte.
  constructor; [ | constructor; [ | constructor]]; apply hexDigit_lowercase.
  - split; [apply Z.div_pos; lia | apply Z.div_lt_upper_bound; lia].
  - apply Z.mod_pos_bound. lia.
Qed.

(** Whatever the channels, [rgbToHex] writes a # followed by six lowercase
    hexadecimal digits. *)
Lemma rgbToHex_shape (rgb : RGB) :
  exists digits : list ascii,
    rgbToHex rgb = String "#"%char (string_of_list_ascii digits) /\
    List.length digits = 6%nat /\
    Forall (fun c => In c (list_ascii_of_string "0123456789abcdef")) digits.
Proof.
  assert (Hbyte : forall q, 0 <= channelByte q <= 255)
    by (intros q; unfold channelByte, clamp; lia).
  eexists. split; [reflexivity | ]. split; [reflexivity | ].
  repeat (apply Forall_app; split); apply hexByte_lowercase, Hbyte.
Qed.

(** * Further properties of the camera playground page *)

(** ** The state after a sequence of presses *)

Lemma State_eta (s : State) :
  s = {| facingMode := facingMode s; overlay := overlay s;
         ratioIndex := ratioIndex s |}.
Proof. now destruct s. Qed.

Lemma presses_snoc (e e' : Event) (evs : list Event) :
  presses e (evs ++ [e']) =
  (presses e evs + (if Event_eq_dec e' e then 1 else 0))%nat.
Proof.
  unfold presses. rewrite count_occ_app. cbn.
  destruct (Event_eq_dec e' e); reflexivity.
Qed.

(** Each cell is moved by the presses of its own button only. *)
Lemma run_components (evs : list Event) (s : State) :
  facingMode (run evs s)
  = Nat.iter (presses PressSwitchCamera evs) switchCamera (facingMode s) /\
  overlay (run evs s)
  = Nat.iter (presses PressGrid evs) switchOverlay (overlay s) /\
  ratioIndex (run evs s)
  = Nat.iter (presses PressRatio evs) switchRatio (ratioIndex s).
Proof.
  induction evs as [ | e evs IH] using rev_ind.
  - cbn. tauto.
  - rewrite run_snoc, !presses_snoc.
    destruct IH as (Hf & Ho & Hi).
    destruct e; cbn [step facingMode overlay ratioIndex];
      repeat match goal with
      | |- context [Event_eq_dec ?a ?b] => destruct (Event_eq_dec a b); try discriminate; try congruence
      end;
      rewrite ?Nat.add_0_r, ?Nat.add_1_r, ?Nat.iter_succ;
      rewrite ?Hf, ?Ho, ?Hi; tauto.
Qed.

Lemma iter_switchCamera (n : nat) (f : FacingMode) :
  Nat.iter n switchCamera f = if Nat.even n then f else switchCamera f.
Proof.
  induction n as [ | n IH]; [reflexivity | ].
  rewrite Nat.even_succ, <- Nat.negb_even, Nat.iter_succ, IH.
  destruct (Nat.even n), f; reflexivity.
Qed.

Lemma iter_switchOverlay_3 (q k : nat) (o : OverlayMode) :
  Nat.iter (3 * q + k) switchOverlay o = Nat.iter k switchOverlay o.
Proof.
  induction q as [ | q IH]; [reflexivity | ].
  replace (3 * S q + k)%nat with (3 + (3 * q + k))%nat by lia.
  rewrite Nat.iter_add, IH.
  cbn. destruct (Nat.iter k switchOverlay o); reflexivity.
Qed.

Lemma iter_switchOverlay (n : nat) (o : OverlayMode) :
  Nat.iter n switchOverlay o = Nat.iter (n mod 3) switchOverlay o.
Proof.
  rewrite <- (iter_switchOverlay_3 (n / 3) (n mod 3)).
  f_equal. apply Nat.div_mod_eq.
Qed.

Lemma iter_switchRatio (n : nat) (i : Z) :
  0 <= i < 4 ->
  Nat.iter n switchRatio i = (i + Z.of_nat n) mod 4.
Proof.
  intros Hi. induction n as [ | n IH].
  - cbn. rewrite Z.add_0_r. symmetry. apply Z.mod_small. lia.
  - rewrite Nat.iter_succ, IH. unfold switchRatio.
    rewrite RATIOS_length_4.
    rewrite Z.rem_mod_nonneg.
    + rewrite Zplus_mod_idemp_l. f_equal. lia.
    + pose proof (Z.mod_pos_bound (i + Z.of_nat n) 4). lia.
    + lia.
Qed.

(** From the initial state the page state is read off the number of
    presses of each button: the facing mode from the parity of the camera
    presses, the overlay from the grid presses modulo 3, the ratio index
    from the ratio presses modulo 4. *)
Theorem run_from_counts (evs : list Event) :
  facingMode (run evs init)
  = (if Nat.even (presses PressSwitchCamera evs) then user else environment) /\
  overlay (run evs init)
  = nth (presses PressGrid evs mod 3) overlayModes none /\
  ratioIndex (run evs init) = Z.of_nat (presses PressRatio evs) mod 4.
Proof.
  destruct (run_components evs init) as (Hf & Ho & Hi).
  rewrite Hf, Ho, Hi. split; [apply iter_switchCamera | split].
  - rewrite iter_switchOverlay.
    pose proof (Nat.mod_upper_bound (presses PressGrid evs) 3) as Hlt.
    destruct (presses PressGrid evs mod 3)%nat as [ | [ | [ | k]]]; try reflexivity. lia.
  - rewrite iter_switchRatio by (cbn; lia). reflexivity.
Qed.

(** The order of the presses does not matter: two sequences with the
    same presses in another order lead from any state to the same state. *)
Theorem run_permutation (evs evs' : list Event) (s : State) :
  Permutation evs evs' -> run evs s = run evs' s.
Proof.
  intros Hperm.
  destruct (run_components evs s) as (Hf & Ho & Hi).
  destruct (run_components evs' s) as (Hf' & Ho' & Hi').
  rewrite (State_eta (run evs s)), (State_eta (run evs' s)).
  rewrite Hf, Ho, Hi, Hf', Ho', Hi'.
  unfold presses.
  pose proof (proj1 (Permutation_count_occ Event_eq_dec evs evs') Hperm) as Hcount.
  now rewrite !Hcount.
Qed.

Lemma run_permutation_witness :
  Permutation [PressRatio; PressGrid] [PressGrid; PressRatio] /\
  run [PressRatio; PressGrid] init = run [PressGrid; PressRatio] init.
Proof.
  split; [apply perm_swap | ].
  apply (run_permutation [PressRatio; PressGrid] [PressGrid; PressRatio] init).
  apply perm_swap.
Defined.

(** Every combination of facing mode, overlay and ratio with an index in
    0..3 can be selected from the initial state, with at most six presses;
    no other state can. *)
Theorem every_setting_reachable (s : State) :
  (0 <= ratioIndex s < 4 <->
   exists evs : list Event, run evs init = s) /\
  (0 <= ratioIndex s < 4 <->
   exists evs : list Event, (List.length evs <= 6)%nat /\ run evs init = s).
Proof.
  assert (Hshort : 0 <= ratioIndex s < 4 ->
                   exists evs : list Event,
                     (List.length evs <= 6)%nat /\ run evs init = s).
  { intros Hi. destruct s as [f o i]. cbn in Hi.
    exists (repeat PressSwitchCamera
              (match f with user => 0 | environment => 1 end)
            ++ repeat PressGrid
                 (match o with none => 0 | thirds => 1 | symmetry => 2 end)
            ++ repeat PressRatio (Z.to_nat i)).
    destruct (ratioIndex_cases i Hi) as [-> | [-> | [-> | ->]]];
      destruct f, o; (split; [vm_compute; lia | reflexivity]). }
  split; split.
  - intros Hi. destruct (Hshort Hi) as (evs & _ & Hrun). now exists evs.
  - intros (evs & <-). apply ratioIndex_reachable.
  - exact Hshort.
  - intros (evs & _ & <-). apply ratioIndex_reachable.
Qed.

Lemma presses_repeat (e e' : Event) (n : nat) :
  presses e (repeat e' n) = if Event_eq_dec e' e then n else 0%nat.
Proof.
  unfold presses. destruct (Event_eq_dec e' e) as [-> | Hne].
  - apply count_occ_repeat_eq. reflexivity.
  - apply count_occ_repeat_neq. congruence.
Qed.

Lemma iter_zero {A : Type} (f : A -> A) (x : A) : Nat.iter 0 f x = x.
Proof. reflexivity. Qed.

Lemma State_eq_iff (s s' : State) :
  s = s' <->
  facingMode s = facingMode s' /\ overlay s = overlay s' /\
  ratioIndex s = ratioIndex s'.
Proof.
  split; [now intros -> | ].
  destruct s, s'; cbn. now intros (-> & -> & ->).
Qed.

Lemma mod4_shift (i : Z) (n : nat) :
  0 <= i < 4 -> ((i + Z.of_nat n) mod 4 = i <-> (n mod 4 = 0)%nat).
Proof.
  intros Hi.
  assert (Hn : Z.of_nat (n mod 4) = Z.of_nat n mod 4)
    by (now rewrite Nat2Z.inj_mod).
  pose proof (Z.div_mod (i + Z.of_nat n) 4).
  pose proof (Z.mod_pos_bound (i + Z.of_nat n) 4).
  pose proof (Z.div_mod (Z.of_nat n) 4).
  pose proof (Z.mod_pos_bound (Z.of_nat n) 4).
  split; intros Heq; lia.
Qed.

(** The cycles have no shorter period: from a state the page can be in,
    n presses of one button give back that state exactly when n is a
    multiple of 2 for the camera button, of 3 for the grid button and of 4
    for the ratio button. *)
Theorem press_periods (n : nat) (evs : list Event) :
  (run (repeat PressSwitchCamera n) (run evs init) = run evs init
   <-> (n mod 2 = 0)%nat) /\
  (run (repeat PressGrid n) (run evs init) = run evs init
   <-> (n mod 3 = 0)%nat) /\
  (run (repeat PressRatio n) (run evs init) = run evs init
   <-> (n mod 4 = 0)%nat).
Proof.
  pose proof (ratioIndex_reachable evs) as Hi.
  set (s := run evs init) in *.
  repeat split; rewrite State_eq_iff;
    match goal with
    | |- context [run ?l s] =>
        destruct (run_components l s) as (Hf & Ho & Hr)
    end;
    rewrite Hf, Ho, Hr, !presses_repeat;
    repeat (destruct (Event_eq_dec _ _); try discriminate; try congruence);
    rewrite ?iter_zero.
  - intros (Hcam & _ & _). rewrite iter_switchCamera in Hcam.
    destruct (Nat.even n) eqn:E.
    + apply Nat.even_spec in E. destruct E as [k ->].
      now rewrite Nat.mul_comm, Nat.Div0.mod_mul.
    + destruct (facingMode s); discriminate.
  - intros Hn. repeat split. rewrite iter_switchCamera.
    replace (Nat.even n) with true; [reflexivity | ].
    symmetry. apply Nat.even_spec. exists (n / 2)%nat.
    rewrite (Nat.div_mod_eq n 2) at 1. lia.
  - intros (_ & Hov & _). rewrite iter_switchOverlay in Hov.
    pose proof (Nat.mod_upper_bound n 3) as Hlt.
    destruct (n mod 3)%nat as [ | [ | [ | k]]]; try reflexivity;
      try (destruct (overlay s); discriminate). lia.
  - intros Hn. repeat split. now rewrite iter_switchOverlay, Hn.
  - intros (_ & _ & Hidx). rewrite iter_switchRatio in Hidx by exact Hi.
    now apply (mod4_shift (ratioIndex s) n Hi).
  - intros Hn. repeat split. rewrite iter_switchRatio by exact Hi.
    now apply (mod4_shift (ratioIndex s) n Hi).
Qed.

(** ** The texts of the buttons *)

(** The grid button shows a different text for each overlay mode, and a
    press of the grid button or of the ratio button always changes the
    text that button shows. *)
Theorem button_labels_change :
  (forall o o' : OverlayMode,
     String.eqb (GridButton o) (GridButton o') = true <-> o = o') /\
  (forall o : OverlayMode,
     String.eqb (GridButton (switchOverlay o)) (GridButton o) = false) /\
  (forall evs : list Event,
     exists l l' : string,
       ratioLabel (run evs init) = Some l /\
       ratioLabel (step (run evs init) PressRatio) = Some l' /\
       String.eqb l' l = false).
Proof.
  split; [ | split].
  - intros o o'. split.
    + destruct o, o'; cbn; intros E; try reflexivity; discriminate.
    + intros ->. apply String.eqb_refl.
  - intros [ | | ]; reflexivity.
  - intros evs. pose proof (ratioIndex_reachable evs) as Hi.
    unfold ratioLabel, currentRatio. cbn [step ratioIndex].
    destruct (ratioIndex_cases _ Hi) as [-> | [-> | [-> | ->]]];
      cbn; do 2 eexists; repeat split.
Qed.

(** ** The name of the downloaded file *)

Lemma countChar_app (c : ascii) (s t : string) :
  countChar c (s ++ t) = (countChar c s + countChar c t)%nat.
Proof.
  induction s as [ | c' s IH]; cbn; [reflexivity | ].
  rewrite IH. lia.
Qed.

Ltac case_chars :=
  repeat match goal with
  | |- context [Ascii.eqb ?a ?b] =>
      destruct (Ascii.eqb_spec a b); subst; try congruence
  end.

Lemma countChar_replaceColonDot (c : ascii) (s : string) :
  countChar c (replaceColonDot s) =
  if (Ascii.eqb c ":" || Ascii.eqb c ".")%bool then 0%nat
  else if Ascii.eqb c "-" then
         (countChar "-" s + countChar ":" s + countChar "." s)%nat
       else countChar c s.
Proof.
  induction s as [ | c' s IH]; cbn [replaceColonDot countChar].
  - now destruct (Ascii.eqb c ":" || Ascii.eqb c ".")%bool, (Ascii.eqb c "-").
  - rewrite IH. clear IH.
    destruct (Ascii.eqb_spec c' ":");
      [subst | destruct (Ascii.eqb_spec c' "."); [subst | ]];
      cbn [orb]; case_chars; cbn; lia.
Qed.

(** The replacement applied to the timestamp leaves no colon and no full
    stop, turns each of them into one hyphen, keeps the length, and
    changes nothing when applied again. *)
Theorem replaceColonDot_clean (s : string) :
  countChar ":" (replaceColonDot s) = 0%nat /\
  countChar "." (replaceColonDot s) = 0%nat /\
  countChar "-" (replaceColonDot s)
  = (countChar "-" s + countChar ":" s + countChar "." s)%nat /\
  String.length (replaceColonDot s) = String.length s /\
  replaceColonDot (replaceColonDot s) = replaceColonDot s.
Proof.
  rewrite !countChar_replaceColonDot. cbn.
  repeat split.
  - induction s as [ | c s IH]; cbn; congruence.
  - induction s as [ | c s IH]; cbn [replaceColonDot]; [reflexivity | ].
    rewrite IH. f_equal.
    destruct (Ascii.eqb_spec c ":");
      [subst | destruct (Ascii.eqb_spec c "."); [subst | ]];
      cbn [orb]; case_chars; reflexivity.
Qed.

(** Whatever the presses before the capture and whatever the timestamp,
    the download name has exactly one full stop, the one of the extension,
    and exactly one colon, the one of the ratio label, which the
    replacement does not reach. *)
Theorem downloadName_separators (evs : list Event) (iso : string) :
  exists l : string,
    ratioLabel (run evs init) = Some l /\
    countChar "." (downloadName l iso) = 1%nat /\
    countChar ":" (downloadName l iso) = 1%nat.
Proof.
  pose proof (ratioIndex_reachable evs) as Hi.
  unfold ratioLabel, currentRatio, downloadName.
  destruct (ratioIndex_cases _ Hi) as [-> | [-> | [-> | ->]]];
    cbn [RATIOS_at Z.ltb Z.compare Z.to_nat Pos.to_nat Pos.iter_op Nat.add nth_error RATIOS option_map label];
    eexists; (split; [reflexivity | ]);
    rewrite !countChar_app, !countChar_replaceColonDot; split; reflexivity.
Qed.

(** ** The matrix of the capture *)

Section CropMore.
Local Open Scope Q_scope.

(** The matrix of the capture flips exactly when the preview is flipped:
    for the front camera a point of the crop at abscissa x is drawn at
    cropWidth - x, for the back camera at x; the ordinate is kept, and the
    point lands between 0 and cropWidth exactly when it started there. *)
Theorem capture_mirrors_like_preview (f : FacingMode) (cw x y : Q) :
  fst (transformPoint (captureTransform f cw) (x, y))
  == (if previewMirrored f then cw - x else x) /\
  snd (transformPoint (captureTransform f cw) (x, y)) == y /\
  (0 <= fst (transformPoint (captureTransform f cw) (x, y)) <= cw
   <-> 0 <= x <= cw).
Proof.
  destruct f; cbn; repeat split; try ring; intros; lra.
Qed.

End CropMore.

(** In binary64, a capture pressed while the video has no dimensions yet
    (videoWidth = videoHeight = 0) compares the ratio NaN, takes the second
    branch and computes an empty crop with zero offsets, not NaN, for every
    ratio of RATIOS. *)
Theorem handleCapture_video_not_ready :
  Forall
    (fun r : RatioOption float =>
       handleCapture (ofZ 0) (ofZ 0) (value r)
       = {| cropWidth := 0%float; cropHeight := 0%float;
            sx := 0%float; sy := 0%float |})
    RATIOS.
Proof. repeat constructor. Qed.
